(** * libsmbios: the Windows physical-memory backend

    Source: [src/libsmbios_c/memory/memory_windows.c].

    The file defines one function,

    <<
    __internal int init_mem_struct(struct memory_access_obj *m)
    {
        printf("WINDOWS NOT IMPLEMENTED YET!!!! \n");
        return -1;
    }
    >>

    The first part of this development embeds it in a small monad for C
    code (a byte-addressed memory, the OS resources the process holds, a
    trace of observable events, and a fault outcome for undefined
    behaviour).  The second part models the open / read / close accessor
    that the specification builds around the initializer, and the last
    part states and proves the properties. *)

From Stdlib Require Import ZArith Strings.String Strings.Ascii Strings.Byte Lia.
From stdpp Require Import base option list gmap.

Local Open Scope Z_scope.

(** ** Observable events, machine state, outcomes *)

(** What a call can do that is visible from outside the process: write
    to the console, or call into the OS for a physical-memory channel. *)
Inductive event : Type :=
| EvPrint (s : string)           (* bytes written to stdout *)
| EvOsOpen (rid : Z)             (* the OS handed out resource [rid] *)
| EvOsRead (a : Z) (n : nat)     (* the OS was asked for [n] bytes at [a] *)
| EvOsClose (rid : Z).           (* resource [rid] was given back *)

(** The state a C caller can inspect: the bytes of memory (so that a
    [struct memory_access_obj] at address [m] is the bytes from [m] on,
    whatever its declaration in [memory_impl.h] is), and the OS resources
    currently held. *)
Record world : Type := World {
  mem : gmap Z byte;
  live : gset Z
}.

Inductive outcome (A : Type) : Type :=
| Fault                                           (* undefined behaviour *)
| Done (t : list event) (a : A) (w : world).
Arguments Fault {A}.
Arguments Done {A} t a w.

Definition M (A : Type) : Type := world -> outcome A.

#[global] Instance M_ret : MRet M := fun A (a : A) (w : world) => Done [] a w.

#[global] Instance M_bind : MBind M :=
  fun A B (k : A -> M B) (c : M A) (w : world) =>
    match c w with
    | Fault => Fault
    | Done t a w1 =>
        match k a w1 with
        | Fault => Fault
        | Done t' b w2 => Done (t ++ t') b w2
        end
    end.

Definition emit (e : event) : M unit := fun w => Done [e] tt w.

Definition crash {A : Type} : M A := fun _ => Fault.

(** The null pointer. *)
Definition NULL : Z := 0.

(** Reading and writing one byte through a pointer.  Both fault on the
    null pointer and on an address that is not mapped. *)
Definition load (p : Z) : M byte := fun w =>
  if decide (p = NULL) then Fault
  else match mem w !! p with
       | Some b => Done [] b w
       | None => Fault
       end.

Definition store (p : Z) (b : byte) : M unit := fun w =>
  if decide (p = NULL) then Fault
  else match mem w !! p with
       | Some _ => Done [] tt {| mem := <[p := b]> (mem w); live := live w |}
       | None => Fault
       end.

(** ** printf with a format and no further argument *)

Definition percent : ascii := "%"%char.
Definition newline : ascii := "010"%char.

(** The text a format produces when no argument follows it: ordinary
    characters are copied, [%%] gives one percent sign, and any other
    conversion has no argument to consume, which is undefined. *)
Fixpoint render (fmt : string) : option string :=
  match fmt with
  | EmptyString => Some EmptyString
  | String c rest =>
      if Ascii.eqb c percent then
        match rest with
        | String c' rest' =>
            if Ascii.eqb c' percent
            then option_map (String percent) (render rest')
            else None
        | EmptyString => None
        end
      else option_map (String c) (render rest)
  end.

(** [printf(fmt)]: the rendered text goes to stdout, the result is the
    number of characters written. *)
Definition printf (fmt : string) : M Z :=
  match render fmt with
  | Some s => emit (EvPrint s) ;; mret (Z.of_nat (String.length s))
  | None => crash
  end.

(** ** memory_windows.c *)

(** The string literal ["WINDOWS NOT IMPLEMENTED YET!!!! \n"]. *)
Definition not_implemented_msg : string :=
  String.append "WINDOWS NOT IMPLEMENTED YET!!!! " (String newline EmptyString).

(** [int init_mem_struct(struct memory_access_obj *m)] *)
Definition init_mem_struct (m : Z) : M Z :=
  printf not_implemented_msg ;;
  mret (-1).

(** ** The accessor around the initializer *)

(** Modelled from the spec: the error kinds of the accessor.  The source
    has the one failure code -1 and no error type; the kinds are those
    the spec lists. *)
Inductive error : Type :=
| Unsupported        (* no backend for this platform *)
| PermissionDenied   (* the caller lacks the privilege *)
| IOError            (* an OS call failed *)
| OutOfRange         (* address/length outside any accessible window *)
| NotOpen.           (* the handle is closed or was never opened *)

Inductive result (A : Type) : Type :=
| Ok (a : A)
| Err (e : error).
Arguments Ok {A} a.
Arguments Err {A} e.

(** Modelled from the spec: the host a working backend runs on.  The
    backends other than the Windows one are not in
    [memory_windows.c]; the spec describes them by the privilege the
    caller needs, an OS open call that may fail, the windows of physical
    memory that can be read, and an OS read call that may fail. *)
Record platform : Type := Platform {
  privileged : bool;          (* the caller may access physical memory *)
  os_open : option Z;         (* the resource the OS hands out, if any *)
  windows : list (Z * Z);     (* accessible windows, as (base, size) *)
  phys : Z -> option byte     (* the OS read of one byte; None on failure *)
}.

(** Modelled from the spec: the open channel of a handle, its "underlying
    OS resource identifier" together with the host it reads from. *)
Record channel : Type := Channel {
  rid : Z;
  plat : platform
}.

(** Modelled from the spec: the MemoryAccessHandle and its three states. *)
Inductive handle : Type :=
| HUnopened
| HOpen (c : channel)
| HClosed.

(** Modelled from the spec: the states of the lifecycle
    [Unopened -> Open -> Closed]; [memory_windows.c] has no state of its
    own. *)
Inductive hstate : Type := Unopened | Open | Closed.

Definition state_of (h : handle) : hstate :=
  match h with
  | HUnopened => Unopened
  | HOpen _ => Open
  | HClosed => Closed
  end.

(** Modelled from the spec: one backend is selected per target.  [Stub]
    is the backend of [memory_windows.c]; [Native p] stands for a working
    one on host [p], whose source is not in that file. *)
Inductive backend : Type :=
| Stub
| Native (p : platform).

Definition acquire (r : Z) : M unit := fun w =>
  Done [EvOsOpen r] tt {| mem := mem w; live := {[ r ]} ∪ live w |}.

Definition release (r : Z) : M unit := fun w =>
  Done [EvOsClose r] tt {| mem := mem w; live := live w ∖ {[ r ]} |}.

(** The stub sets up no channel: were its initializer to report success,
    the handle would have no window to read from. *)
Definition no_channel : channel :=
  {| rid := 0;
     plat := {| privileged := false; os_open := None;
                windows := []; phys := fun _ => None |} |}.

(** Modelled from the spec: open().  The caller of [init_mem_struct] is
    not in [memory_windows.c]; the spec has the operation run the
    backend's initializer on the object [m] and report [Unsupported] when
    a backend without an implementation signals failure.  On a working
    backend it fails with [PermissionDenied] without the privilege and
    with [IOError] when the OS call fails. *)
Definition open (b : backend) (m : Z) : M (result handle) :=
  match b with
  | Stub =>
      rc ← init_mem_struct m;
      if decide (rc = 0) then mret (Ok (HOpen no_channel))
      else mret (Err Unsupported)
  | Native p =>
      if privileged p then
        match os_open p with
        | Some r => acquire r ;; mret (Ok (HOpen (Channel r p)))
        | None => mret (Err IOError)
        end
      else mret (Err PermissionDenied)
  end.

(** The addresses [a, a+n). *)
Definition span (a : Z) (n : nat) : list Z :=
  map (fun i : nat => a + Z.of_nat i) (seq 0 n).

Definition covers (a : Z) (win : Z * Z) : bool :=
  (win.1 <=? a) && (a <? win.1 + win.2).

Definition accessible (p : platform) (a : Z) : bool :=
  existsb (covers a) (windows p).

(** [a, a+n) lies within the accessible region: each of its addresses is
    covered by a window.  The empty range lies within it. *)
Definition in_range (p : platform) (a : Z) (n : nat) : bool :=
  forallb (accessible p) (span a n).

(** The OS read of [n] bytes from [a]: every byte, or a failure. *)
Definition fetch (p : platform) (a : Z) (n : nat) : option (list byte) :=
  mapM (phys p) (span a n).

(** Modelled from the spec: read(handle, physical_address, length), which
    "returns a byte sequence of exactly length bytes read starting at
    physical_address, or fails with OutOfRange (address/length outside any
    accessible window), IOError (underlying OS call failed), or NotOpen
    (handle already closed)".  The function is not in
    [memory_windows.c]. *)
Definition read (h : handle) (a : Z) (n : nat) : M (result (list byte)) :=
  match h with
  | HOpen c =>
      if in_range (plat c) a n then
        emit (EvOsRead a n) ;;
        match fetch (plat c) a n with
        | Some bs => mret (Ok bs)
        | None => mret (Err IOError)
        end
      else mret (Err OutOfRange)
  | HUnopened | HClosed => mret (Err NotOpen)
  end.

(** Modelled from the spec: close(handle), which "releases OS resources;
    idempotent (closing an already-closed handle is a no-op, not an
    error)".  The function is not in [memory_windows.c].  A handle that
    was never opened holds nothing to release and is left as it is. *)
Definition close (h : handle) : M (result unit * handle) :=
  match h with
  | HOpen c => release (rid c) ;; mret (Ok tt, HClosed)
  | HClosed => mret (Ok tt, HClosed)
  | HUnopened => mret (Ok tt, HUnopened)
  end.

(** What one operation was and what it answered. *)
Inductive label : Type :=
| LOpen (m : Z) (r : result handle)
| LRead (a : Z) (n : nat) (r : result (list byte))
| LClose (r : result unit).

(** Modelled from the spec: the handle lifecycle.  One step is one
    operation on the handle: open() on a handle that was never opened,
    read() or close() on any handle. *)
Inductive step (b : backend) :
    handle * world -> label -> handle * world -> Prop :=
| step_open_ok m w t h' w' :
    open b m w = Done t (Ok h') w' ->
    step b (HUnopened, w) (LOpen m (Ok h')) (h', w')
| step_open_err m w t e w' :
    open b m w = Done t (Err e) w' ->
    step b (HUnopened, w) (LOpen m (Err e)) (HUnopened, w')
| step_read h a n w t r w' :
    read h a n w = Done t r w' ->
    step b (h, w) (LRead a n r) (h, w')
| step_close h w t r h' w' :
    close h w = Done t (r, h') w' ->
    step b (h, w) (LClose r) (h', w').

Definition moves (b : backend) (s s' : handle * world) : Prop :=
  exists l : label, step b s l s'.

(** The state an open() leaves a never-opened handle in. *)
Definition after_open (r : result handle) : hstate :=
  match r with
  | Ok _ => Open
  | Err _ => Unopened
  end.

(** The edges of [Unopened -> Open -> Closed], and staying in place. *)
Definition lifecycle_edge (s s' : hstate) : bool :=
  match s, s' with
  | Unopened, Unopened | Open, Open | Closed, Closed => true
  | Unopened, Open | Open, Closed => true
  | _, _ => false
  end.

(** Calling the initializer once for each pointer of [ms], in order. *)
Fixpoint init_each (ms : list Z) : M (list Z) :=
  match ms with
  | [] => mret []
  | m :: ms' =>
      rc ← init_mem_struct m;
      rcs ← init_each ms';
      mret (rc :: rcs)
  end.

(** open() on the stub once for each pointer of [ms], in order. *)
Fixpoint open_each (ms : list Z) : M (list (result handle)) :=
  match ms with
  | [] => mret []
  | m :: ms' =>
      r ← open Stub m;
      rs ← open_each ms';
      mret (r :: rs)
  end.

(** What a call returns, when it returns. *)
Definition retval {A : Type} (o : outcome A) : option A :=
  match o with
  | Fault => None
  | Done _ a _ => Some a
  end.

(** The events that call into the OS for physical memory. *)
Definition is_os_call (e : event) : bool :=
  match e with
  | EvPrint _ => false
  | EvOsOpen _ | EvOsRead _ _ | EvOsClose _ => true
  end.


(** A host whose window at 0xF0000 is readable. *)
Definition f0000_host : platform :=
  {| privileged := true; os_open := Some 3;
     windows := [(983040, 65536)]; phys := fun _ => Some x00 |}.

Definition empty_world : world := World ∅ ∅.

(** The handle open() gives on [f0000_host], and the states after that
    open() and after the close() that follows it. *)
Definition f0000_handle : handle := HOpen (Channel 3 f0000_host).

Definition f0000_opened : world :=
  {| mem := ∅; live := {[ 3 ]} ∪ ∅ |}.

Definition f0000_closed : world :=
  {| mem := ∅; live := ({[ 3 ]} ∪ ∅) ∖ {[ 3 ]} |}.

(** ** Observing a call from outside *)

(** The text a trace leaves on stdout. *)
Fixpoint stdout_of (t : list event) : string :=
  match t with
  | [] => EmptyString
  | EvPrint s :: t' => String.append s (stdout_of t')
  | _ :: t' => stdout_of t'
  end.

(** How often the character [c] occurs in [s]. *)
Fixpoint count_char (c : ascii) (s : string) : nat :=
  match s with
  | EmptyString => 0%nat
  | String c' s' => ((if Ascii.eqb c c' then 1 else 0) + count_char c s')%nat
  end.

(** * Properties *)

Ltac run_M :=
  cbv [mbind mret M_bind M_ret emit acquire release crash] in *.

(** ** The initializer, step by step *)

Lemma render_not_implemented_msg :
  render not_implemented_msg = Some not_implemented_msg.
Proof. reflexivity. Qed.

Lemma printf_not_implemented_msg (w : world) :
  printf not_implemented_msg w = Done [EvPrint not_implemented_msg] 33 w.
Proof. unfold printf. rewrite render_not_implemented_msg. reflexivity. Qed.

Lemma init_mem_struct_run (m : Z) (w : world) :
  init_mem_struct m w = Done [EvPrint not_implemented_msg] (-1) w.
Proof.
  unfold init_mem_struct. run_M.
  rewrite printf_not_implemented_msg. reflexivity.
Qed.

Lemma open_stub_run (m : Z) (w : world) :
  open Stub m w = Done [EvPrint not_implemented_msg] (Err Unsupported) w.
Proof.
  unfold open. run_M. rewrite init_mem_struct_run.
  destruct (decide (-1 = 0)) as [E | _]; [discriminate E | reflexivity].
Qed.

(** Dereferencing the null pointer is a fault in this model. *)
Lemma load_NULL_faults (w : world) : load NULL w = Fault.
Proof. reflexivity. Qed.

Lemma store_NULL_faults (b : byte) (w : world) : store NULL b w = Fault.
Proof. reflexivity. Qed.

Lemma init_each_run (ms : list Z) (w : world) :
  init_each ms w =
  Done (map (fun _ => EvPrint not_implemented_msg) ms) (map (fun _ => -1) ms) w.
Proof.
  induction ms as [| m ms IH]; [reflexivity |].
  cbn [init_each]. run_M. rewrite init_mem_struct_run, IH.
  rewrite app_nil_r. reflexivity.
Qed.

Lemma open_each_run (ms : list Z) (w : world) :
  open_each ms w =
  Done (map (fun _ => EvPrint not_implemented_msg) ms)
       (map (fun _ => Err Unsupported) ms) w.
Proof.
  induction ms as [| m ms IH]; [reflexivity |].
  cbn [open_each]. unfold mbind at 1. unfold M_bind at 1.
  rewrite open_stub_run. unfold mbind at 1. unfold M_bind at 1.
  rewrite IH. run_M. rewrite app_nil_r. reflexivity.
Qed.

(** ** The lifecycle, step by step *)

Lemma open_ok_state (b : backend) (m : Z) (w w' : world) (t : list event)
    (h' : handle) :
  open b m w = Done t (Ok h') w' -> state_of h' = Open.
Proof.
  destruct b as [| p].
  - rewrite open_stub_run. intros E. discriminate E.
  - unfold open. destruct (privileged p); [| run_M; intros E; discriminate E].
    destruct (os_open p) as [r |]; run_M; intros E; inversion E; reflexivity.
Qed.

Lemma close_state (h h' : handle) (w w' : world) (t : list event)
    (r : result unit) :
  close h w = Done t (r, h') w' ->
  lifecycle_edge (state_of h) (state_of h') = true /\ r = Ok tt.
Proof.
  destruct h as [| c |]; unfold close; run_M; intros E; inversion E;
    split; reflexivity.
Qed.

Lemma step_edge (b : backend) (s s' : handle * world) (l : label) :
  step b s l s' -> lifecycle_edge (state_of s.1) (state_of s'.1) = true.
Proof.
  intros Hstep. destruct Hstep as
    [m w t h' w' Hopen | m w t e w' Hopen | h a n w t r w' Hread
    | h w t r h' w' Hclose]; cbn [fst].
  - rewrite (open_ok_state _ _ _ _ _ _ Hopen). reflexivity.
  - reflexivity.
  - destruct h; reflexivity.
  - apply (close_state _ _ _ _ _ _ Hclose).
Qed.

Lemma closed_is_terminal (b : backend) (s s' : handle * world) :
  rtc (moves b) s s' -> state_of s.1 = Closed -> state_of s'.1 = Closed.
Proof.
  induction 1 as [s | s1 s2 s3 [l Hstep] _ IH]; [trivial |].
  intros Hclosed. apply IH.
  pose proof (step_edge _ _ _ _ Hstep) as Hedge. rewrite Hclosed in Hedge.
  destruct (state_of s2.1); [discriminate Hedge .. | reflexivity].
Qed.

Lemma stub_step_unopened (s s' : handle * world) (l : label) :
  step Stub s l s' -> s.1 = HUnopened -> s'.1 = HUnopened.
Proof.
  intros Hstep. destruct Hstep as
    [m w t h' w' Hopen | m w t e w' Hopen | h a n w t r w' Hread
    | h w t r h' w' Hclose]; cbn [fst]; intros Hun.
  - rewrite open_stub_run in Hopen. discriminate Hopen.
  - reflexivity.
  - exact Hun.
  - subst h. unfold close in Hclose. run_M. inversion Hclose. reflexivity.
Qed.

Lemma stub_never_opens (s s' : handle * world) :
  rtc (moves Stub) s s' -> s.1 = HUnopened -> s'.1 = HUnopened.
Proof.
  induction 1 as [s | s1 s2 s3 [l Hstep] _ IH]; [trivial |].
  intros Hun. apply IH. exact (stub_step_unopened _ _ _ Hstep Hun).
Qed.



Lemma in_range_zero (p : platform) (a : Z) : in_range p a 0 = true.
Proof. reflexivity. Qed.

Lemma fetch_zero (p : platform) (a : Z) : fetch p a 0 = Some [].
Proof. reflexivity. Qed.

(** ** The stub backend *)

(** C1. On the stub backend open() always fails with [Unsupported] and
    never returns a handle: for every pointer [m] and every state [w],
    [init_mem_struct] returns, its return code is not the success code
    0, and open() over it gives [Err Unsupported], never [Ok]. *)
Theorem stub_open_always_unsupported (m : Z) (w : world) :
  (exists t rc w', init_mem_struct m w = Done t rc w' /\ rc <> 0) /\
  retval (open Stub m w) = Some (Err Unsupported) /\
  (forall h : handle, retval (open Stub m w) <> Some (Ok h)).
Proof.
  rewrite open_stub_run, init_mem_struct_run. cbn [retval].
  split; [| split].
  - exists [EvPrint not_implemented_msg], (-1), w. split; [reflexivity | lia].
  - reflexivity.
  - intros h E. discriminate E.
Qed.

(** C2. For every input the initializer prints the "not implemented"
    message and returns an error code, and does nothing else: the trace
    of the call is the one line on stdout, the line is the literal of
    the source and contains NOT IMPLEMENTED, no event of the trace is an
    OS call, the result is -1, and the state is the one before the
    call. *)
Theorem init_mem_struct_prints_and_fails (m : Z) (w : world) :
  init_mem_struct m w = Done [EvPrint not_implemented_msg] (-1) w /\
  String.index 0 "NOT IMPLEMENTED" not_implemented_msg = Some 8%nat /\
  existsb is_os_call [EvPrint not_implemented_msg] = false /\
  -1 <> 0.
Proof.
  split; [apply init_mem_struct_run |].
  split; [reflexivity |]. split; [reflexivity | lia].
Qed.

(** C3. A failed open() on the stub leaves nothing behind: no handle is
    produced, no OS resource is acquired (the set of live resources is the
    same and the trace, which is the diagnostic line alone, holds no OS
    call), and the memory and resources the caller can inspect after the
    call are those before it. *)
Theorem stub_open_no_side_effect (m : Z) (w : world) :
  exists t w',
    init_mem_struct m w = Done t (-1) w' /\
    open Stub m w = Done t (Err Unsupported) w' /\
    t = [EvPrint not_implemented_msg] /\
    existsb is_os_call t = false /\
    live w' = live w /\
    mem w' = mem w /\
    w' = w.
Proof.
  exists [EvPrint not_implemented_msg], w.
  rewrite init_mem_struct_run, open_stub_run. repeat split; reflexivity.
Qed.

(** C4. The failure is permanent: however many times the initializer is
    called, with whatever pointers, every call returns -1, every open()
    over it returns [Unsupported], and along any run of operations on the
    stub backend a handle that was never opened stays unopened. *)
Theorem stub_failure_permanent (ms : list Z) (w : world) :
  retval (init_each ms w) = Some (map (fun _ => -1) ms) /\
  retval (open_each ms w) = Some (map (fun _ => Err Unsupported) ms) /\
  (forall (h : handle) (w' : world),
      rtc (moves Stub) (HUnopened, w) (h, w') -> state_of h = Unopened).
Proof.
  rewrite init_each_run, open_each_run. cbn [retval].
  split; [reflexivity |]. split; [reflexivity |].
  intros h w' Hrun.
  pose proof (stub_never_opens _ _ Hrun eq_refl) as Hun. cbn [fst] in Hun.
  rewrite Hun. reflexivity.
Qed.

Lemma stub_failure_permanent_witness :
  rtc (moves Stub) (HUnopened, empty_world) (HUnopened, empty_world) /\
  state_of HUnopened = Unopened.
Proof.
  assert (Hrun : rtc (moves Stub) (HUnopened, empty_world)
                     (HUnopened, empty_world)).
  { eapply rtc_l; [| apply rtc_refl].
    exists (LOpen NULL (Err Unsupported)).
    eapply (step_open_err Stub NULL). apply open_stub_run. }
  split; [exact Hrun |].
  exact (proj2 (proj2 (stub_failure_permanent [NULL; 4096] empty_world))
           HUnopened empty_world Hrun).
Defined.

(** C9. The initializer never reads or writes through its argument: for
    every pointer value, the null pointer included, the call does not
    fault, every byte of memory (so every field of the object at [m]) is
    what it was, and the trace and the result are the same whatever the
    pointer and whatever the memory holds. *)
Theorem init_mem_struct_never_dereferences (m : Z) (w : world) :
  init_mem_struct NULL w <> Fault /\
  exists t rc w',
    init_mem_struct m w = Done t rc w' /\
    (forall p : Z, mem w' !! p = mem w !! p) /\
    (forall off : Z, mem w' !! (m + off) = mem w !! (m + off)) /\
    (forall (m2 : Z) (w2 : world), exists w2',
        init_mem_struct m2 w2 = Done t rc w2' /\ mem w2' = mem w2).
Proof.
  split.
  - rewrite init_mem_struct_run. intros E. discriminate E.
  - exists [EvPrint not_implemented_msg], (-1), w.
    split; [apply init_mem_struct_run |].
    split; [reflexivity |]. split; [reflexivity |].
    intros m2 w2. exists w2. split; [apply init_mem_struct_run | reflexivity].
Qed.

(** C10. The initializer is deterministic and independent of its input:
    any two calls, on any two pointers and in any two states, return the
    same value, and that value is -1. *)
Theorem init_mem_struct_constant (m1 m2 : Z) (w1 w2 : world) :
  retval (init_mem_struct m1 w1) = retval (init_mem_struct m2 w2) /\
  retval (init_mem_struct m1 w1) = Some (-1).
Proof. rewrite !init_mem_struct_run. split; reflexivity. Qed.

(** ** The accessor *)

(** C5. read() on a handle that is closed or was never opened fails with
    [NotOpen], whatever the address and the length; nothing is asked of
    the OS and the state is left as it was. *)
Theorem read_not_open (h : handle) (a : Z) (n : nat) (w : world) :
  state_of h = Closed \/ state_of h = Unopened ->
  read h a n w = Done [] (Err NotOpen) w.
Proof.
  intros [Hst | Hst]; destruct h as [| c |];
    first [discriminate Hst | reflexivity].
Qed.

Lemma read_not_open_witness :
  (state_of HClosed = Closed \/ state_of HClosed = Unopened) /\
  read HClosed 983040 16 empty_world = Done [] (Err NotOpen) empty_world.
Proof.
  split; [left; reflexivity |].
  apply (read_not_open HClosed 983040 16 empty_world). left. reflexivity.
Defined.

(** C6. close() is idempotent: the first close succeeds, a second close
    right after it succeeds too, emits no event and changes neither the
    handle nor the state, so that closing twice is the same computation
    as closing once. *)
Theorem close_idempotent (h : handle) (w : world) :
  (exists t h1 w1,
      close h w = Done t (Ok tt, h1) w1 /\
      close h1 w1 = Done [] (Ok tt, h1) w1) /\
  (r ← close h; close r.2) w = close h w /\
  close HClosed w = Done [] (Ok tt, HClosed) w.
Proof.
  split; [| split; [| reflexivity]].
  - destruct h as [| c |]; unfold close; run_M.
    + exists [], HUnopened, w. split; reflexivity.
    + eexists _, HClosed, _. split; reflexivity.
    + exists [], HClosed, w. split; reflexivity.
  - destruct h as [| c |]; reflexivity.
Qed.





(** C8. The lifecycle is [Unopened -> Open -> Closed]: every state a
    handle reaches is one of the three; every step stays in place or
    follows one of the two edges; open() applies to a never-opened
    handle and leaves it open on success and unopened on failure; read()
    leaves the handle as it is and answers [NotOpen] outside of [Open];
    close() does not fail and takes [Open] to [Closed]; and no run of
    operations leaves [Closed]. *)
Theorem handle_lifecycle (b : backend) :
  (forall s s' : handle * world,
      rtc (moves b) s s' ->
      state_of s'.1 = Unopened \/ state_of s'.1 = Open \/
      state_of s'.1 = Closed) /\
  (forall (s s' : handle * world) (l : label),
      step b s l s' ->
      lifecycle_edge (state_of s.1) (state_of s'.1) = true) /\
  (forall (s s' : handle * world) (m : Z) (r : result handle),
      step b s (LOpen m r) s' ->
      state_of s.1 = Unopened /\ state_of s'.1 = after_open r) /\
  (forall (s s' : handle * world) (a : Z) (n : nat) (r : result (list byte)),
      step b s (LRead a n r) s' ->
      s'.1 = s.1 /\ (state_of s.1 <> Open -> r = Err NotOpen)) /\
  (forall (s s' : handle * world) (r : result unit),
      step b s (LClose r) s' ->
      r = Ok tt /\ (state_of s.1 = Open -> state_of s'.1 = Closed)) /\
  (forall s s' : handle * world,
      rtc (moves b) s s' ->
      state_of s.1 = Closed -> state_of s'.1 = Closed).
Proof.
  split; [| split; [| split; [| split; [| split]]]].
  - intros s s' _. destruct (state_of s'.1); auto.
  - intros s s' l. apply step_edge.
  - intros s s' m r Hstep. inversion Hstep as
      [m0 w t h' w' Hopen | m0 w t e w' Hopen | |]; subst; cbn [fst].
    + split; [reflexivity |]. exact (open_ok_state _ _ _ _ _ _ Hopen).
    + split; reflexivity.
  - intros s s' a n r Hstep. inversion Hstep as
      [| | h a0 n0 w t r0 w' Hread |]; subst; cbn [fst].
    split; [reflexivity |]. intros Hst.
    destruct h as [| c |]; first [contradiction Hst; reflexivity | idtac];
      unfold read in Hread; run_M; inversion Hread; reflexivity.
  - intros s s' r Hstep. inversion Hstep as
      [| | | h w t r0 h' w' Hclose]; subst; cbn [fst].
    split; [exact (proj2 (close_state _ _ _ _ _ _ Hclose)) |].
    intros Hopen. destruct h as [| c |]; try discriminate Hopen.
    unfold close in Hclose. run_M. inversion Hclose. reflexivity.
  - intros s s'. apply closed_is_terminal.
Qed.

Lemma handle_lifecycle_witness :
  step (Native f0000_host) (HUnopened, empty_world)
       (LOpen NULL (Ok f0000_handle)) (f0000_handle, f0000_opened) /\
  state_of f0000_handle = Open /\
  step (Native f0000_host) (f0000_handle, f0000_opened)
       (LClose (Ok tt)) (HClosed, f0000_closed) /\
  rtc (moves (Native f0000_host)) (HClosed, f0000_closed)
      (HClosed, f0000_closed) /\
  state_of HClosed = Closed.
Proof.
  pose proof (handle_lifecycle (Native f0000_host))
    as [_ [_ [Hopen [_ [Hclose Hterminal]]]]].
  assert (S1 : step (Native f0000_host) (HUnopened, empty_world)
                 (LOpen NULL (Ok f0000_handle)) (f0000_handle, f0000_opened)).
  { eapply step_open_ok. reflexivity. }
  assert (S2 : step (Native f0000_host) (f0000_handle, f0000_opened)
                 (LClose (Ok tt)) (HClosed, f0000_closed)).
  { eapply step_close. reflexivity. }
  assert (S3 : rtc (moves (Native f0000_host)) (HClosed, f0000_closed)
                 (HClosed, f0000_closed)).
  { eapply rtc_l; [| apply rtc_refl].
    exists (LRead 983040 16 (Err NotOpen)). eapply step_read. reflexivity. }
  split; [exact S1 |].
  split; [exact (proj2 (Hopen _ _ _ _ S1)) |].
  split; [exact S2 |].
  split; [exact S3 |].
  exact (Hterminal _ _ S3 (proj2 (Hclose _ _ _ S2) eq_refl)).
Defined.

(** ** Further properties of the initializer *)

Lemma string_length_append (s1 s2 : string) :
  String.length (String.append s1 s2) =
  (String.length s1 + String.length s2)%nat.
Proof.
  induction s1 as [| c s1 IH]; [reflexivity |].
  change (S (String.length (String.append s1 s2)) =
          S (String.length s1 + String.length s2)).
  rewrite IH. reflexivity.
Qed.

Lemma count_char_append (c : ascii) (s1 s2 : string) :
  count_char c (String.append s1 s2) =
  (count_char c s1 + count_char c s2)%nat.
Proof.
  induction s1 as [| c1 s1 IH]; [reflexivity |].
  change (((if Ascii.eqb c c1 then 1 else 0) +
           count_char c (String.append s1 s2))%nat =
          ((if Ascii.eqb c c1 then 1 else 0) + count_char c s1 +
           count_char c s2)%nat).
  rewrite IH. lia.
Qed.

Lemma map_const_replicate {A B : Type} (b : B) (l : list A) :
  map (fun _ => b) l = replicate (length l) b.
Proof.
  induction l as [| a l IH]; [reflexivity |].
  cbn [map length replicate]. rewrite IH. reflexivity.
Qed.

Lemma stdout_of_prints (s : string) (n : nat) :
  String.length (stdout_of (replicate n (EvPrint s))) =
    (String.length s * n)%nat /\
  count_char newline (stdout_of (replicate n (EvPrint s))) =
    (count_char newline s * n)%nat.
Proof.
  induction n as [| n [IHlen IHcount]]; [split; cbn; lia |].
  change (stdout_of (replicate (S n) (EvPrint s)))
    with (String.append s (stdout_of (replicate n (EvPrint s)))).
  rewrite string_length_append, count_char_append, IHlen, IHcount.
  split; lia.
Qed.

Lemma not_implemented_msg_shape :
  String.length not_implemented_msg = 33%nat /\
  count_char newline not_implemented_msg = 1%nat.
Proof. split; reflexivity. Qed.

(** X1. The message is printed on every call, not once: calling the
    initializer on each pointer of a list, in order, returns -1 each
    time, puts one diagnostic event per call on the trace, so that stdout
    grows by 33 characters and by one line per call, and leaves memory
    and OS resources as they were. *)
Theorem init_each_output (ms : list Z) (w : world) :
  exists t : list event,
    init_each ms w = Done t (replicate (length ms) (-1)) w /\
    t = replicate (length ms) (EvPrint not_implemented_msg) /\
    String.length (stdout_of t) = (33 * length ms)%nat /\
    count_char newline (stdout_of t) = length ms /\
    existsb is_os_call t = false.
Proof.
  exists (replicate (length ms) (EvPrint not_implemented_msg)).
  rewrite init_each_run, !map_const_replicate.
  destruct (stdout_of_prints not_implemented_msg (length ms)) as [Hlen Hcount].
  destruct not_implemented_msg_shape as [Hlen1 Hcount1].
  rewrite Hlen1 in Hlen. rewrite Hcount1 in Hcount.
  split; [reflexivity |]. split; [reflexivity |].
  split; [exact Hlen |].
  split; [rewrite Hcount; lia |].
  clear Hlen Hcount.
  induction (length ms) as [| n IH]; [reflexivity | exact IH].
Qed.
